(** * The rectangle and polygon items of the jade drawing library

    A shallow embedding of [source/DrawingRectItem.cpp] together with the
    parts of [DrawingItem], [DrawingItemStyle] and [DrawingPolygonItem] it
    relies on, and the properties of the geometric core that follow from it.

    Conventions of the embedding:
    - a [qreal] is an exact rational ([Q]); equality of coordinates is
      [Qeq], and Qt's comparison tolerance on [QPointF] is not modelled;
    - an item owns an ordered list of points; a [DrawingItemPoint*] handed
      to an item is the index of the point in that list, an index past the
      end standing for a point the item does not own;
    - [QList::operator[]] and [QList::first] fault outside the list, so
      every function that indexes the point list returns an [option], and
      [None] is the fault;
    - the table of default style values is shared by all items and is
      passed explicitly to whatever consults it. *)

From Stdlib Require Import QArith Qminmax Lqa.
From stdpp Require Import base option list countable gmap.

Local Open Scope Q_scope.

(** ** Qt value types *)

Module Qt.

Record QPointF : Type := mkPointF { xp : Q; yp : Q }.

Definition originF : QPointF := mkPointF 0 0.

Definition point_add (p q : QPointF) : QPointF :=
  mkPointF (xp p + xp q) (yp p + yp q).

Definition point_sub (p q : QPointF) : QPointF :=
  mkPointF (xp p - xp q) (yp p - yp q).

Definition point_neg (p : QPointF) : QPointF :=
  mkPointF (- xp p) (- yp p).

(** [operator==] and [operator!=] on [QPointF], with exact comparison. *)
Definition point_eqb (p q : QPointF) : bool :=
  Qeq_bool (xp p) (xp q) && Qeq_bool (yp p) (yp q).

Definition point_neqb (p q : QPointF) : bool := negb (point_eqb p q).

(** A [QRectF] stores its top-left corner and its signed width and height. *)
Record QRectF : Type := mkRectF { rx : Q; ry : Q; rw : Q; rh : Q }.

(** [QRectF()] *)
Definition nullRectF : QRectF := mkRectF 0 0 0 0.

(** [QRectF(topLeft, bottomRight)] *)
Definition rectF_of_corners (tl br : QPointF) : QRectF :=
  mkRectF (xp tl) (yp tl) (xp br - xp tl) (yp br - yp tl).

Definition left (r : QRectF) : Q := rx r.
Definition top (r : QRectF) : Q := ry r.
Definition right (r : QRectF) : Q := rx r + rw r.
Definition bottom (r : QRectF) : Q := ry r + rh r.
Definition width (r : QRectF) : Q := rw r.
Definition height (r : QRectF) : Q := rh r.

Definition center (r : QRectF) : QPointF :=
  mkPointF (rx r + rw r / 2) (ry r + rh r / 2).

Definition topLeft (r : QRectF) : QPointF := mkPointF (left r) (top r).
Definition topRight (r : QRectF) : QPointF := mkPointF (right r) (top r).
Definition bottomRight (r : QRectF) : QPointF := mkPointF (right r) (bottom r).
Definition bottomLeft (r : QRectF) : QPointF := mkPointF (left r) (bottom r).

(** The edge setters move one edge and keep the opposite one. *)
Definition setLeft (pos : Q) (r : QRectF) : QRectF :=
  let diff := pos - rx r in
  mkRectF (rx r + diff) (ry r) (rw r - diff) (rh r).

Definition setTop (pos : Q) (r : QRectF) : QRectF :=
  let diff := pos - ry r in
  mkRectF (rx r) (ry r + diff) (rw r) (rh r - diff).

Definition setRight (pos : Q) (r : QRectF) : QRectF :=
  mkRectF (rx r) (ry r) (pos - rx r) (rh r).

Definition setBottom (pos : Q) (r : QRectF) : QRectF :=
  mkRectF (rx r) (ry r) (rw r) (pos - ry r).

Definition setTopLeft (p : QPointF) (r : QRectF) : QRectF :=
  setTop (yp p) (setLeft (xp p) r).

Definition setTopRight (p : QPointF) (r : QRectF) : QRectF :=
  setTop (yp p) (setRight (xp p) r).

Definition setBottomRight (p : QPointF) (r : QRectF) : QRectF :=
  setBottom (yp p) (setRight (xp p) r).

Definition setBottomLeft (p : QPointF) (r : QRectF) : QRectF :=
  setBottom (yp p) (setLeft (xp p) r).

Definition Qltb (a b : Q) : bool := negb (Qle_bool b a).

(** [qMax(a, b)] is [(a < b) ? b : a]. *)
Definition qMax (a b : Q) : Q := if Qltb a b then b else a.

(** [QRectF::normalized]: the same rectangle with non-negative extent. *)
Definition normalized (r : QRectF) : QRectF :=
  let r1 := if Qltb (rw r) 0
            then mkRectF (rx r + rw r) (ry r) (- rw r) (rh r) else r in
  if Qltb (rh r1) 0
  then mkRectF (rx r1) (ry r1 + rh r1) (rw r1) (- rh r1) else r1.

(** [QRectF::adjust(dx1, dy1, dx2, dy2)] *)
Definition adjust (dx1 dy1 dx2 dy2 : Q) (r : QRectF) : QRectF :=
  mkRectF (rx r + dx1) (ry r + dy1)
          (rw r + (dx2 - dx1)) (rh r + (dy2 - dy1)).

(** [QRectF::isEmpty] *)
Definition isEmpty (r : QRectF) : bool :=
  Qle_bool (rw r) 0 || Qle_bool (rh r) 0.

(** An affine [QTransform]: [map] sends (x, y) to
    (m11 x + m21 y + dx, m12 x + m22 y + dy). *)
Record QTransform : Type := mkTransform {
  m11 : Q; m12 : Q; m21 : Q; m22 : Q; tdx : Q; tdy : Q }.

Definition identityTransform : QTransform := mkTransform 1 0 0 1 0 0.

Definition map (t : QTransform) (p : QPointF) : QPointF :=
  mkPointF (m11 t * xp p + m21 t * yp p + tdx t)
           (m12 t * xp p + m22 t * yp p + tdy t).

(** A transform with no translation part is a linear map. *)
Definition linear (t : QTransform) : Prop := tdx t == 0 /\ tdy t == 0.

(** The values a style table holds. *)
Inductive QVariant : Type :=
| VInvalid
| VUInt (n : N)
| VReal (q : Q)
| VColor (r g b : Z).

(** [QVariant::toReal]: a variant that is not a number converts to 0. *)
Definition toReal (v : QVariant) : Q :=
  match v with
  | VReal q => q
  | VUInt n => inject_Z (Z.of_N n)
  | _ => 0
  end.

Definition SolidLine : N := 1.
Definition RoundCap : N := 32.
Definition RoundJoin : N := 128.
Definition SolidPattern : N := 1.

Record QPen : Type := mkPen { widthF : Q }.
Record QBrush : Type := mkBrush { alpha : Z }.

Definition setWidthF (wd : Q) (p : QPen) : QPen := mkPen wd.

(** A [QPainterPath] is kept as the term of the operations that built it. *)
Inductive QPainterPath : Type :=
| PathEmpty
| PathRoundedRect (base : QPainterPath) (r : QRectF) (radx rady : Q)
| PathAdd (base other : QPainterPath).

(** What a [QPainter] is asked to draw, with the pen and brush in force. *)
Inductive DrawCommand : Type :=
| DrawRoundedRect (r : QRectF) (radx rady : Q) (pen : QPen) (brush : QBrush).

(** A [QPainter]: its current brush and pen, and what it has drawn. *)
Record QPainter : Type := mkPainter {
  painterBrush : QBrush;
  painterPen : QPen;
  painted : list DrawCommand }.

Definition setBrush (b : QBrush) (p : QPainter) : QPainter :=
  mkPainter b (painterPen p) (painted p).

Definition setPen (q : QPen) (p : QPainter) : QPainter :=
  mkPainter (painterBrush p) q (painted p).

Definition drawRoundedRect (r : QRectF) (radx rady : Q) (p : QPainter) :
    QPainter :=
  mkPainter (painterBrush p) (painterPen p)
    (painted p ++ [DrawRoundedRect r radx rady (painterPen p) (painterBrush p)]).

(** [Qt::LeftButton] *)
Definition LeftButton : N := 1.

End Qt.
Export Qt.

(** Coordinate-wise equality of points and of rectangles. *)
Definition point_equiv (p q : QPointF) : Prop :=
  xp p == xp q /\ yp p == yp q.

Definition rect_equiv (r s : QRectF) : Prop :=
  rx r == rx s /\ ry r == ry s /\ rw r == rw s /\ rh r == rh s.

Infix "=p=" := point_equiv (at level 70, no associativity).
Infix "=r=" := rect_equiv (at level 70, no associativity).

(** ** Style tables *)

Module DrawingItemStyle.

(** The style properties the rectangle item seeds. *)
Inductive Property : Type :=
| PenStyle | PenColor | PenOpacity | PenWidth | PenCapStyle | PenJoinStyle
| BrushStyle | BrushColor | BrushOpacity.

#[global] Instance Property_eq_dec : EqDecision Property.
Proof. solve_decision. Defined.

Definition Property_code (k : Property) : nat :=
  match k with
  | PenStyle => 0 | PenColor => 1 | PenOpacity => 2 | PenWidth => 3
  | PenCapStyle => 4 | PenJoinStyle => 5
  | BrushStyle => 6 | BrushColor => 7 | BrushOpacity => 8
  end%nat.

Definition Property_of_code (n : nat) : option Property :=
  match n with
  | 0 => Some PenStyle | 1 => Some PenColor | 2 => Some PenOpacity
  | 3 => Some PenWidth | 4 => Some PenCapStyle | 5 => Some PenJoinStyle
  | 6 => Some BrushStyle | 7 => Some BrushColor | 8 => Some BrushOpacity
  | _ => None
  end%nat.

Definition Property_code_inv (k : Property) :
    Property_of_code (Property_code k) = Some k :=
  match k with
  | PenStyle => eq_refl | PenColor => eq_refl | PenOpacity => eq_refl
  | PenWidth => eq_refl | PenCapStyle => eq_refl | PenJoinStyle => eq_refl
  | BrushStyle => eq_refl | BrushColor => eq_refl | BrushOpacity => eq_refl
  end.

#[global] Instance Property_countable : Countable Property :=
  inj_countable Property_code Property_of_code Property_code_inv.

(** An item's own table. The shared default table is a
    [option (gmap Property QVariant)], [None] when none is attached. *)
Record t : Type := mk { mValues : gmap Property QVariant }.

Definition empty : t := mk ∅.

(** Modelled from the spec: [DrawingItemStyle::setValue], whose body is
    not among the sources; it overwrites the local entry unconditionally. *)
Definition setValue (k : Property) (v : QVariant) (s : t) : t :=
  mk (<[k := v]> (mValues s)).

(** Modelled from the spec: [DrawingItemStyle::valueLookup], whose body is
    not among the sources; the local value if present, else the default
    table's value if a table is attached and has an entry, else the
    fallback. The table is not changed. *)
Definition valueLookup (defaults : option (gmap Property QVariant))
    (s : t) (k : Property) (fallback : QVariant) : QVariant :=
  match mValues s !! k with
  | Some v => v
  | None =>
      match defaults with
      | Some d => match d !! k with Some v => v | None => fallback end
      | None => fallback
      end
  end.

End DrawingItemStyle.

(** ** Item points *)

Module DrawingItemPoint.

Inductive Flag : Type := Control | Connection | Free.

Record t : Type := mk { pos : QPointF; flags : list Flag }.

Definition x (p : t) : Q := xp (pos p).
Definition y (p : t) : Q := yp (pos p).

Definition setPos (q : QPointF) (p : t) : t := mk q (flags p).

End DrawingItemPoint.

(** ** The base item *)

Module DrawingItem.

Import DrawingItemPoint.

Record t : Type := mk {
  mPosition : QPointF;
  mTransform : QTransform;
  mTransformInverse : QTransform;
  mPoints : list DrawingItemPoint.t;
  mStyle : DrawingItemStyle.t }.

(** Modelled from the spec: the base constructor [DrawingItem::DrawingItem],
    whose body is not among the sources; a new item sits at the origin of
    the scene with the identity transform, no points and an empty local
    style table. *)
Definition new : t :=
  mk originF identityTransform identityTransform [] DrawingItemStyle.empty.

Definition points (it : t) : list DrawingItemPoint.t := mPoints it.
Definition style (it : t) : DrawingItemStyle.t := mStyle it.

Definition withPoints (ps : list DrawingItemPoint.t) (it : t) : t :=
  mk (mPosition it) (mTransform it) (mTransformInverse it) ps (mStyle it).

Definition withStyle (s : DrawingItemStyle.t) (it : t) : t :=
  mk (mPosition it) (mTransform it) (mTransformInverse it) (mPoints it) s.

(** [setPos]: the item's position in the scene. *)
Definition setPos (p : QPointF) (it : t) : t :=
  mk p (mTransform it) (mTransformInverse it) (mPoints it) (mStyle it).

(** Modelled from the spec: [DrawingItem::addPoint], whose body is not
    among the sources; the point goes to the end of the point list. *)
Definition addPoint (p : DrawingItemPoint.t) (it : t) : t :=
  withPoints (mPoints it ++ [p]) it.

(** Modelled from the spec: [DrawingItem::mapToScene], whose body is not
    among the sources; local, then the item's transform, then the
    translation by the item's position. *)
Definition mapToScene (it : t) (p : QPointF) : QPointF :=
  point_add (map (mTransform it) p) (mPosition it).

(** Modelled from the spec: [DrawingItem::mapFromScene], whose body is not
    among the sources; the inverse composition of [mapToScene]. *)
Definition mapFromScene (it : t) (p : QPointF) : QPointF :=
  map (mTransformInverse it) (point_sub p (mPosition it)).

(** [points[i]->setPos(q)]; [None] when [i] is outside the list. *)
Definition setPointPos (i : nat) (q : QPointF)
    (ps : list DrawingItemPoint.t) : option (list DrawingItemPoint.t) :=
  p ← ps !! i; Some (<[i := DrawingItemPoint.setPos q p]> ps).

(** [itemPoint->setPos(q)] through a pointer: a point of another item is
    outside this item's list, which then stays as it is. *)
Definition setPosVia (itemPoint : nat) (q : QPointF)
    (ps : list DrawingItemPoint.t) : list DrawingItemPoint.t :=
  match ps !! itemPoint with
  | Some p => <[itemPoint := DrawingItemPoint.setPos q p]> ps
  | None => ps
  end.

(** Modelled from the spec: the base [DrawingItem::resizeItem], whose body
    is not among the sources; the scene position is mapped into local
    coordinates and becomes the point's position. *)
Definition resizeItem (itemPoint : nat) (scenePos : QPointF) (it : t) : t :=
  withPoints (setPosVia itemPoint (mapFromScene it scenePos) (mPoints it)) it.

(** Squared distance between two points; it orders points as the
    distance does. *)
Definition distance2 (p q : QPointF) : Q :=
  (xp p - xp q) * (xp p - xp q) + (yp p - yp q) * (yp p - yp q).

(** Scan for the nearest point: [best] is the index of the nearest point
    so far, [i] the index of the head of [ps]. A later point replaces the
    best one only when it is strictly nearer. *)
Fixpoint nearestFrom (itemPos : QPointF) (best : nat) (bestD : Q)
    (i : nat) (ps : list DrawingItemPoint.t) : nat :=
  match ps with
  | [] => best
  | p :: ps' =>
      let d := distance2 (pos p) itemPos in
      if Qltb d bestD
      then nearestFrom itemPos i d (S i) ps'
      else nearestFrom itemPos best bestD (S i) ps'
  end.

(** Modelled from the spec: [DrawingItem::pointNearest], whose body is not
    among the sources; the distance from [itemPos] to each point is
    computed and the closest point is returned, no point when the item has
    none. *)
Definition pointNearest (it : t) (itemPos : QPointF) : option nat :=
  match mPoints it with
  | [] => None
  | p :: ps => Some (nearestFrom itemPos 0%nat (distance2 (pos p) itemPos) 1%nat ps)
  end.

(** Modelled from the spec: [DrawingItem::removePoint], whose body is not
    among the sources; the point leaves the list, and nothing happens for
    a point that is not in it. *)
Definition removePoint (itemPoint : nat) (it : t) : t :=
  withPoints (delete itemPoint (mPoints it)) it.

End DrawingItem.

(** ** The rectangle item *)

Module DrawingRectItem.

Import DrawingItemPoint DrawingItemStyle.

Record t : Type := mk {
  base : DrawingItem.t;
  mCornerRadiusX : Q;
  mCornerRadiusY : Q }.

Definition points (it : t) : list DrawingItemPoint.t :=
  DrawingItem.points (base it).

Definition style (it : t) : DrawingItemStyle.t := DrawingItem.style (base it).

Definition withBase (b : DrawingItem.t) (it : t) : t :=
  mk b (mCornerRadiusX it) (mCornerRadiusY it).

(** One step of the constructor's style seeding:
    [style->setValue(k, style->valueLookup(k, fallback))]. *)
Definition seed (defaults : option (gmap Property QVariant))
    (k : Property) (fallback : QVariant) (s : DrawingItemStyle.t) :
    DrawingItemStyle.t :=
  setValue k (valueLookup defaults s k fallback) s.

(** [for(int i = 0; i < 8; i++) addPoint(new DrawingItemPoint(QPointF(0, 0), flags))] *)
Fixpoint addPoints (n : nat) (flags : list Flag) (b : DrawingItem.t) :
    DrawingItem.t :=
  match n with
  | O => b
  | S n' =>
      addPoints n' flags
        (DrawingItem.addPoint (DrawingItemPoint.mk (mkPointF 0 0) flags) b)
  end.

(** [DrawingRectItem::DrawingRectItem()], run against the default table
    current at that moment. *)
Definition new (defaults : option (gmap Property QVariant)) : t :=
  let flags := [Control; Connection] in
  let b := addPoints 8 flags DrawingItem.new in
  let s0 := DrawingItem.style b in
  let s1 := seed defaults PenStyle (VUInt SolidLine) s0 in
  let s2 := seed defaults PenColor (VColor 0 0 0) s1 in
  let s3 := seed defaults PenOpacity (VReal 1) s2 in
  let s4 := seed defaults PenWidth (VReal 12) s3 in
  let s5 := seed defaults PenCapStyle (VUInt RoundCap) s4 in
  let s6 := seed defaults PenJoinStyle (VUInt RoundJoin) s5 in
  let s7 := seed defaults BrushStyle (VUInt SolidPattern) s6 in
  let s8 := seed defaults BrushColor (VColor 255 255 255) s7 in
  let s9 := seed defaults BrushOpacity (VReal 1) s8 in
  mk (DrawingItem.withStyle s9 b) 0 0.

(** The eight boundary points of a rectangle, written in the order the
    source assigns them: [points[0]] first, [points[7]] last. *)
Definition placePoints (r : QRectF) (ps : list DrawingItemPoint.t) :
    option (list DrawingItemPoint.t) :=
  ps0 ← DrawingItem.setPointPos 0 (mkPointF (left r) (top r)) ps;
  ps1 ← DrawingItem.setPointPos 1 (mkPointF (xp (center r)) (top r)) ps0;
  ps2 ← DrawingItem.setPointPos 2 (mkPointF (right r) (top r)) ps1;
  ps3 ← DrawingItem.setPointPos 3 (mkPointF (right r) (yp (center r))) ps2;
  ps4 ← DrawingItem.setPointPos 4 (mkPointF (right r) (bottom r)) ps3;
  ps5 ← DrawingItem.setPointPos 5 (mkPointF (xp (center r)) (bottom r)) ps4;
  ps6 ← DrawingItem.setPointPos 6 (mkPointF (left r) (bottom r)) ps5;
  DrawingItem.setPointPos 7 (mkPointF (left r) (yp (center r))) ps6.

(** [DrawingRectItem::setRect(const QRectF&)] *)
Definition setRect (r : QRectF) (it : t) : option t :=
  ps ← placePoints r (points it);
  Some (withBase (DrawingItem.withPoints ps (base it)) it).

(** [DrawingRectItem::rect()] *)
Definition rect (it : t) : option QRectF :=
  let points := points it in
  if (8 <=? length points)%nat
  then p0 ← points !! 0%nat; p4 ← points !! 4%nat;
       Some (rectF_of_corners (pos p0) (pos p4))
  else Some nullRectF.

(** [DrawingRectItem::setCornerRadii]: both assignments go to
    [mCornerRadiusX], as in the source. *)
Definition setCornerRadii (radiusX radiusY : Q) (it : t) : t :=
  let it1 := mk (base it) radiusX (mCornerRadiusY it) in
  mk (base it1) radiusY (mCornerRadiusY it1).

Definition cornerRadiusX (it : t) : Q := mCornerRadiusX it.
Definition cornerRadiusY (it : t) : Q := mCornerRadiusY it.

(** [DrawingRectItem::isValid()]; [&&] does not look at the points when
    there are fewer than eight. *)
Definition isValid (it : t) : option bool :=
  let points := points it in
  if (8 <=? length points)%nat
  then p0 ← points !! 0%nat; p4 ← points !! 4%nat;
       Some (point_neqb (pos p0) (pos p4))
  else Some false.

(** [DrawingRectItem::boundingRect()] *)
Definition boundingRect (defaults : option (gmap Property QVariant))
    (it : t) : option QRectF :=
  valid ← isValid it;
  if valid : bool then
    let penWidth := toReal (valueLookup defaults (style it) PenWidth VInvalid) in
    r ← rect it;
    Some (adjust (- penWidth / 2) (- penWidth / 2) (penWidth / 2) (penWidth / 2)
                 (normalized r))
  else Some nullRectF.

Section Shape.

(** What [shape()] takes from code that is not among the sources:
    [DrawingItemStyle::pen] and [brush], [DrawingItem::minimumPenWidth] and
    [DrawingItem::strokePath]. *)
Variable pen : option (gmap Property QVariant) → DrawingItemStyle.t → QPen.
Variable brush : option (gmap Property QVariant) → DrawingItemStyle.t → QBrush.
Variable minimumPenWidth : DrawingItem.t → Q.
Variable strokePath : QPainterPath → QPen → QPainterPath.

(** [DrawingRectItem::shape()] *)
Definition shape (defaults : option (gmap Property QVariant)) (it : t) :
    option QPainterPath :=
  valid ← isValid it;
  if valid : bool then
    let style := style it in
    let pen0 := pen defaults style in
    let brush0 := brush defaults style in
    r ← rect it;
    let drawPath :=
      PathRoundedRect PathEmpty (normalized r)
                      (mCornerRadiusX it) (mCornerRadiusY it) in
    let pen1 := setWidthF (qMax (widthF pen0) (minimumPenWidth (base it))) pen0 in
    let shape0 := strokePath drawPath pen1 in
    Some (if (0 <? alpha brush0)%Z then PathAdd shape0 drawPath else shape0)
  else Some PathEmpty.

End Shape.

(** The [switch] of [resizeItem]: the edge or corner of [r] that follows
    the moved point. *)
Definition moveEdge (pointIndex : nat) (itemPoint : DrawingItemPoint.t)
    (r : QRectF) : QRectF :=
  match pointIndex with
  | 0 => setTopLeft (pos itemPoint) r
  | 1 => setTop (DrawingItemPoint.y itemPoint) r
  | 2 => setTopRight (pos itemPoint) r
  | 3 => setRight (DrawingItemPoint.x itemPoint) r
  | 4 => setBottomRight (pos itemPoint) r
  | 5 => setBottom (DrawingItemPoint.y itemPoint) r
  | 6 => setBottomLeft (pos itemPoint) r
  | 7 => setLeft (DrawingItemPoint.x itemPoint) r
  | _ => r
  end%nat.

(** First half of [resizeItem]: the base resize, then the eight points
    placed again on the rectangle the moved point gives. [points.indexOf]
    finds the moved point at its own index, or nowhere when it belongs to
    another item. *)
Definition rederive (itemPoint : nat) (scenePos : QPointF) (it : t) :
    option t :=
  let it1 := withBase (DrawingItem.resizeItem itemPoint scenePos (base it)) it in
  let points := points it1 in
  if (8 <=? length points)%nat then
    r ← rect it1;
    if (itemPoint <? length points)%nat && (itemPoint <? 8)%nat then
      ip ← points !! itemPoint;
      ps ← placePoints (moveEdge itemPoint ip r) points;
      Some (withBase (DrawingItem.withPoints ps (base it1)) it1)
    else Some it1
  else Some it1.

(** Second half of [resizeItem]: the item and its points are shifted so
    that the first point sits at the local origin. [points.first()] faults
    on an item without points. *)
Definition renormalize (it : t) : option t :=
  let points := points it in
  first ← head points;
  let deltaPos := point_neg (pos first) in
  let pointScenePos := DrawingItem.mapToScene (base it) (pos first) in
  let moved :=
    (λ p, DrawingItemPoint.setPos (point_add (pos p) deltaPos) p) <$> points in
  Some (withBase
          (DrawingItem.setPos pointScenePos
             (DrawingItem.withPoints moved (base it))) it).

(** [DrawingRectItem::resizeItem] *)
Definition resizeItem (itemPoint : nat) (scenePos : QPointF) (it : t) :
    option t :=
  it2 ← rederive itemPoint scenePos it; renormalize it2.

(** The scene position of the [i]-th point of an item. *)
Definition pointScenePos (it : t) (i : nat) : option QPointF :=
  p ← points it !! i; Some (DrawingItem.mapToScene (base it) (pos p)).

(** [DrawingRectItem::setRect(qreal left, qreal top, qreal width, qreal height)] *)
Definition setRect4 (left0 top0 width0 height0 : Q) (it : t) : option t :=
  setRect (mkRectF left0 top0 width0 height0) it.

Section Paint.

(** [DrawingItemStyle::pen] and [brush], whose bodies are not among the
    sources. *)
Variable pen : option (gmap Property QVariant) → DrawingItemStyle.t → QPen.
Variable brush : option (gmap Property QVariant) → DrawingItemStyle.t → QBrush.

(** [DrawingRectItem::paint] *)
Definition paint (defaults : option (gmap Property QVariant)) (it : t)
    (painter : QPainter) : option QPainter :=
  valid ← isValid it;
  if valid : bool then
    let sceneBrush := painterBrush painter in
    let scenePen := painterPen painter in
    let style := style it in
    let pen0 := pen defaults style in
    let brush0 := brush defaults style in
    let painter1 := setPen pen0 (setBrush brush0 painter) in
    r ← rect it;
    let painter2 :=
      drawRoundedRect r (mCornerRadiusX it) (mCornerRadiusY it) painter1 in
    Some (setPen scenePen (setBrush sceneBrush painter2))
  else Some painter.

End Paint.

(** [DrawingRectItem::newItemCopyEvent]: every point goes to (0,0); the
    answer is always [true]. *)
Definition newItemCopyEvent (it : t) : t * bool :=
  let points := DrawingItem.points (base it) in
  (withBase
     (DrawingItem.withPoints
        (DrawingItemPoint.setPos (mkPointF 0 0) <$> points) (base it)) it,
   true).

(** What the item reads of a [DrawingMouseEvent]. *)
Record DrawingMouseEvent : Type := mkMouseEvent {
  buttons : N;
  scenePos : QPointF }.

(** What the item asks of the [DrawingWidget] it is drawn in. *)
Record DrawingWidget : Type := mkWidget {
  roundToGrid : QPointF → QPointF }.

Section NewItemEvents.

(** [DrawingItem::newMouseMoveEvent], whose body is not among the
    sources. *)
Variable baseNewMouseMoveEvent :
  DrawingMouseEvent → DrawingItem.t → DrawingItem.t.

(** [DrawingRectItem::newMouseMoveEvent]; [drawing] is what
    [DrawingItem::drawing()] returns, [None] for the null pointer.
    [points[4]] faults on an item with fewer than five points. *)
Definition newMouseMoveEvent (drawing : option DrawingWidget)
    (event : DrawingMouseEvent) (it : t) : option t :=
  if negb (N.land (buttons event) LeftButton =? 0)%N then
    let points := points it in
    _ ← points !! 4%nat;
    let endPoint := 4%nat in
    let newPos := scenePos event in
    let newPos := match drawing with
                  | Some d => roundToGrid d newPos
                  | None => newPos
                  end in
    resizeItem endPoint newPos it
  else Some (withBase (baseNewMouseMoveEvent event (base it)) it).

End NewItemEvents.

(** [DrawingRectItem::newMouseReleaseEvent] *)
Definition newMouseReleaseEvent (event : DrawingMouseEvent) (it : t) :
    option bool :=
  isValid it.

End DrawingRectItem.

(** ** The polygon item *)

Module DrawingPolygonItem.

Record t : Type := mk { base : DrawingItem.t }.

Definition points (it : t) : list DrawingItemPoint.t :=
  DrawingItem.points (base it).

(** Modelled from the spec: [DrawingPolygonItem::itemPointToRemove], whose
    body is not among the sources; the point nearest to [itemPos], and no
    point when removing one would leave fewer than three. *)
Definition itemPointToRemove (it : t) (itemPos : QPointF) : option nat :=
  if (3 <? length (points it))%nat
  then DrawingItem.pointNearest (base it) itemPos
  else None.

(** The item after the point found by [itemPointToRemove] is removed. *)
Definition removePoint (itemPoint : nat) (it : t) : t :=
  mk (DrawingItem.removePoint itemPoint (base it)).

End DrawingPolygonItem.

(** ** Vocabulary of the statements *)

(** The eight boundary points sit on [r]: the even ones at its corners,
    the odd ones at the midpoints of its edges. *)
Definition onBoundary (r : QRectF) (ps : list DrawingItemPoint.t) : Prop :=
  ∃ p0 p1 p2 p3 p4 p5 p6 p7,
    ps !! 0%nat = Some p0 ∧ ps !! 1%nat = Some p1 ∧
    ps !! 2%nat = Some p2 ∧ ps !! 3%nat = Some p3 ∧
    ps !! 4%nat = Some p4 ∧ ps !! 5%nat = Some p5 ∧
    ps !! 6%nat = Some p6 ∧ ps !! 7%nat = Some p7 ∧
    DrawingItemPoint.pos p0 =p= topLeft r ∧
    DrawingItemPoint.pos p1 =p= mkPointF (xp (center r)) (top r) ∧
    DrawingItemPoint.pos p2 =p= topRight r ∧
    DrawingItemPoint.pos p3 =p= mkPointF (right r) (yp (center r)) ∧
    DrawingItemPoint.pos p4 =p= bottomRight r ∧
    DrawingItemPoint.pos p5 =p= mkPointF (xp (center r)) (bottom r) ∧
    DrawingItemPoint.pos p6 =p= bottomLeft r ∧
    DrawingItemPoint.pos p7 =p= mkPointF (left r) (yp (center r)).

(** [QRectF::translated] *)
Definition translated (d : QPointF) (r : QRectF) : QRectF :=
  mkRectF (rx r + xp d) (ry r + yp d) (rw r) (rh r).

(** The shift that the end of [resizeItem] applies to every point. *)
Definition shiftPoint (d : QPointF) (p : DrawingItemPoint.t) :
    DrawingItemPoint.t :=
  DrawingItemPoint.setPos (point_add (DrawingItemPoint.pos p) d) p.

(** What a resize asks of the moved point: a corner point goes to the
    target [q], the midpoint of a horizontal edge takes its height, the
    midpoint of a vertical edge its abscissa. *)
Definition follows (pointIndex : nat) (q p : QPointF) : Prop :=
  match pointIndex with
  | 0 | 2 | 4 | 6 => p =p= q
  | 1 | 5 => yp p == yp q
  | 3 | 7 => xp p == xp q
  | _ => True
  end%nat.

(** The corner of [r] that the corner point of index [k] stands for, and
    the index of the corner point across the rectangle. *)
Definition cornerOf (k : nat) (r : QRectF) : QPointF :=
  match k with
  | 2 => topRight r
  | 4 => bottomRight r
  | 6 => bottomLeft r
  | _ => topLeft r
  end%nat.

Definition opposite (k : nat) : nat :=
  match k with
  | 0 => 4 | 2 => 6 | 4 => 0 | 6 => 2 | _ => k
  end%nat.

(** The fallback the constructor gives for each style property. *)
Definition builtinValue (k : DrawingItemStyle.Property) : QVariant :=
  match k with
  | DrawingItemStyle.PenStyle => VUInt SolidLine
  | DrawingItemStyle.PenColor => VColor 0 0 0
  | DrawingItemStyle.PenOpacity => VReal 1
  | DrawingItemStyle.PenWidth => VReal 12
  | DrawingItemStyle.PenCapStyle => VUInt RoundCap
  | DrawingItemStyle.PenJoinStyle => VUInt RoundJoin
  | DrawingItemStyle.BrushStyle => VUInt SolidPattern
  | DrawingItemStyle.BrushColor => VColor 255 255 255
  | DrawingItemStyle.BrushOpacity => VReal 1
  end.

(** A rectangle item built with no default table attached and whose
    points are then given directly. *)
Definition rectItemOf (ps : list QPointF) : DrawingRectItem.t :=
  DrawingRectItem.mk
    (DrawingItem.withPoints
       ((λ p, DrawingItemPoint.mk p
                [DrawingItemPoint.Control; DrawingItemPoint.Connection]) <$> ps)
       (DrawingRectItem.base (DrawingRectItem.new None)))
    0 0.

(** A polygon item whose points are given directly. *)
Definition polygonItemOf (ps : list QPointF) : DrawingPolygonItem.t :=
  DrawingPolygonItem.mk
    (DrawingItem.withPoints
       ((λ p, DrawingItemPoint.mk p
                [DrawingItemPoint.Control; DrawingItemPoint.Connection]) <$> ps)
       DrawingItem.new).

Definition triangleItem : DrawingPolygonItem.t :=
  polygonItemOf [mkPointF 0 0; mkPointF 4 0; mkPointF 0 4].

Definition quadItem : DrawingPolygonItem.t :=
  polygonItemOf [mkPointF 0 0; mkPointF 4 0; mkPointF 4 4; mkPointF 0 4].

(** A rectangle of width 3 and height 4. *)
Definition boxRectItem : DrawingRectItem.t :=
  rectItemOf [mkPointF 0 0; mkPointF (3 # 2) 0; mkPointF 3 0; mkPointF 3 2;
              mkPointF 3 4; mkPointF (3 # 2) 4; mkPointF 0 4; mkPointF 0 2].

(** The boundary point across the rectangle from the point of index
    [i]: corner to opposite corner, edge midpoint to the midpoint of the
    opposite edge. *)
Definition facing (i : nat) : nat :=
  match i with
  | 0 => 4 | 1 => 5 | 2 => 6 | 3 => 7
  | 4 => 0 | 5 => 1 | 6 => 2 | 7 => 3
  | _ => i
  end%nat.

(** [inv] undoes [t]: mapping through [inv] and then through [t] gives
    the point back. *)
Definition undoes (t inv : QTransform) : Prop :=
  ∀ p : QPointF, map t (map inv p) =p= p.

(** ** Properties of the value types *)

(** Linear arithmetic over [Q], with halves written as products. *)
Ltac qlin :=
  unfold Qdiv in *; change (/ 2) with (1 # 2) in *; lra.

Section ValueTypes.

Lemma Qltb_lt (a b : Q) : Qltb a b = true ↔ a < b.
Proof.
  unfold Qltb. rewrite negb_true_iff.
  destruct (Qle_bool b a) eqn:E.
  - apply Qle_bool_iff in E. split; [discriminate | intros H; lra].
  - split; [intros _ | reflexivity].
    destruct (Qlt_le_dec a b) as [H | H]; [exact H |].
    apply Qle_bool_iff in H. congruence.
Qed.

Lemma Qltb_ge (a b : Q) : Qltb a b = false ↔ b <= a.
Proof.
  unfold Qltb. rewrite negb_false_iff. apply Qle_bool_iff.
Qed.

Lemma point_eqb_equiv (p q : QPointF) : point_eqb p q = true ↔ p =p= q.
Proof.
  unfold point_eqb, point_equiv.
  rewrite andb_true_iff, !Qeq_bool_iff. reflexivity.
Qed.

Lemma point_neqb_false (p q : QPointF) : point_neqb p q = false ↔ p =p= q.
Proof.
  unfold point_neqb. rewrite negb_false_iff. apply point_eqb_equiv.
Qed.

Lemma point_neqb_true (p q : QPointF) : point_neqb p q = true ↔ ¬ p =p= q.
Proof.
  unfold point_neqb. rewrite negb_true_iff, <- point_eqb_equiv.
  destruct (point_eqb p q); split; congruence.
Qed.

(** The edges of a normalized rectangle are the least and the greatest
    coordinates of the two corners it was built from. *)
Lemma normalized_edges (a b : QPointF) :
  let n := normalized (rectF_of_corners a b) in
  left n == Qmin (xp a) (xp b) ∧ top n == Qmin (yp a) (yp b) ∧
  right n == Qmax (xp a) (xp b) ∧ bottom n == Qmax (yp a) (yp b).
Proof.
  destruct a as [ax ay], b as [bx be].
  unfold normalized, rectF_of_corners, left, top, right, bottom; simpl.
  destruct (Q.min_spec ax bx) as [[? ->] | [? ->]],
           (Q.max_spec ax bx) as [[? ->] | [? ->]],
           (Q.min_spec ay be) as [[? ->] | [? ->]],
           (Q.max_spec ay be) as [[? ->] | [? ->]];
    destruct (Qltb (bx - ax) 0) eqn:E1; simpl;
    destruct (Qltb (be - ay) 0) eqn:E2; simpl;
    try apply Qltb_lt in E1; try apply Qltb_ge in E1;
    try apply Qltb_lt in E2; try apply Qltb_ge in E2;
    repeat split; lra.
Qed.

End ValueTypes.

(** ** Geometry queries of the rectangle item *)

Section RectQueries.

Import DrawingRectItem.

Implicit Types (it : DrawingRectItem.t) (ps : list DrawingItemPoint.t).

Lemma corners_present it :
  (8 ≤ length (points it))%nat →
  ∃ p0 p4, points it !! 0%nat = Some p0 ∧ points it !! 4%nat = Some p4.
Proof.
  intros Hlen.
  destruct (lookup_lt_is_Some_2 (points it) 0%nat) as [p0 H0]; [lia |].
  destruct (lookup_lt_is_Some_2 (points it) 4%nat) as [p4 H4]; [lia |].
  eauto.
Qed.

Lemma rect_short it :
  (length (points it) < 8)%nat → rect it = Some nullRectF.
Proof.
  intros Hlen. unfold rect.
  destruct (Nat.leb_spec 8 (length (points it))); [lia | reflexivity].
Qed.

Lemma rect_full it p0 p4 :
  (8 ≤ length (points it))%nat →
  points it !! 0%nat = Some p0 → points it !! 4%nat = Some p4 →
  rect it = Some (rectF_of_corners (DrawingItemPoint.pos p0)
                                   (DrawingItemPoint.pos p4)).
Proof.
  intros Hlen H0 H4. unfold rect.
  destruct (Nat.leb_spec 8 (length (points it))); [| lia].
  rewrite H0, H4. reflexivity.
Qed.

Lemma isValid_short it :
  (length (points it) < 8)%nat → isValid it = Some false.
Proof.
  intros Hlen. unfold isValid.
  destruct (Nat.leb_spec 8 (length (points it))); [lia | reflexivity].
Qed.

Lemma isValid_full it p0 p4 :
  (8 ≤ length (points it))%nat →
  points it !! 0%nat = Some p0 → points it !! 4%nat = Some p4 →
  isValid it = Some (point_neqb (DrawingItemPoint.pos p0)
                                (DrawingItemPoint.pos p4)).
Proof.
  intros Hlen H0 H4. unfold isValid.
  destruct (Nat.leb_spec 8 (length (points it))); [| lia].
  rewrite H0, H4. reflexivity.
Qed.

(** [rect()] and [isValid()] answer on every item. *)
Lemma rect_total it : is_Some (rect it).
Proof.
  destruct (Nat.lt_ge_cases (length (points it)) 8) as [H | H].
  - rewrite rect_short by done. eauto.
  - destruct (corners_present it H) as (p0 & p4 & H0 & H4).
    rewrite (rect_full it p0 p4) by done. eauto.
Qed.

Lemma isValid_total it : is_Some (isValid it).
Proof.
  destruct (Nat.lt_ge_cases (length (points it)) 8) as [H | H].
  - rewrite isValid_short by done. eauto.
  - destruct (corners_present it H) as (p0 & p4 & H0 & H4).
    rewrite (isValid_full it p0 p4) by done. eauto.
Qed.

Lemma isValid_true_length it :
  isValid it = Some true → (8 ≤ length (points it))%nat.
Proof.
  intros Hv.
  destruct (Nat.lt_ge_cases (length (points it)) 8) as [H | H]; [| done].
  rewrite isValid_short in Hv by done. discriminate.
Qed.

Lemma corners_coincide_extent (a b : QPointF) :
  a =p= b ↔
  width (rectF_of_corners a b) == 0 ∧ height (rectF_of_corners a b) == 0.
Proof.
  unfold point_equiv, width, height, rectF_of_corners; simpl.
  split; intros [H1 H2]; split; lra.
Qed.

(** The radii setter on any item: the X radius ends as the second
    argument and the Y radius keeps its old value. *)
Lemma setCornerRadii_effect it (radiusX radiusY : Q) :
  cornerRadiusX (setCornerRadii radiusX radiusY it) = radiusY ∧
  cornerRadiusY (setCornerRadii radiusX radiusY it) = cornerRadiusY it.
Proof. split; reflexivity. Qed.

(** C1. The claim asks that after [setCornerRadii(rx, ry)] the X radius is
    [rx] and the Y radius is [ry]. On a new rectangle item,
    [setCornerRadii(1, 2)] leaves the X radius at 2 and the Y radius at
    its initial 0: the second assignment of the source writes the Y
    argument into the X field. *)
Theorem setCornerRadii_new_1_2 :
  cornerRadiusX (setCornerRadii 1 2 (new None)) = 2 ∧
  cornerRadiusY (setCornerRadii 1 2 (new None)) = 0 ∧
  ¬ (cornerRadiusX (setCornerRadii 1 2 (new None)) == 1) ∧
  ¬ (cornerRadiusY (setCornerRadii 1 2 (new None)) == 2).
Proof.
  repeat split; try reflexivity; cbn; intros H; discriminate H.
Qed.



Section WithShape.

Variable pen : option (gmap DrawingItemStyle.Property QVariant) →
               DrawingItemStyle.t → QPen.
Variable brush : option (gmap DrawingItemStyle.Property QVariant) →
                 DrawingItemStyle.t → QBrush.
Variable minimumPenWidth : DrawingItem.t → Q.
Variable strokePath : QPainterPath → QPen → QPainterPath.

Local Abbreviation shape :=
  (DrawingRectItem.shape pen brush minimumPenWidth strokePath).

(** C8. On an item that [isValid()] rejects, [boundingRect()] returns the
    default rectangle, which is empty, and [shape()] returns the empty
    path; neither faults. *)
Theorem invalid_item_empty_geometry defaults it :
  isValid it = Some false →
  boundingRect defaults it = Some nullRectF ∧
  isEmpty nullRectF = true ∧
  shape defaults it = Some PathEmpty.
Proof.
  intros Hv. unfold DrawingRectItem.shape, boundingRect.
  rewrite Hv. repeat split.
Qed.

(** C10. With fewer than eight points, [rect()] returns the default
    rectangle, [isValid()] returns false, and [boundingRect()] and
    [shape()] return the empty rectangle and the empty path: each query
    answers, none reads a point outside the list. *)
Theorem short_point_list_queries defaults it :
  (length (points it) < 8)%nat →
  rect it = Some nullRectF ∧
  isValid it = Some false ∧
  boundingRect defaults it = Some nullRectF ∧
  isEmpty nullRectF = true ∧
  shape defaults it = Some PathEmpty.
Proof.
  intros Hlen.
  pose proof (isValid_short it Hlen) as Hv.
  split; [by apply rect_short |]. split; [done |].
  unfold DrawingRectItem.shape, boundingRect.
  rewrite Hv. repeat split.
Qed.

End WithShape.

Lemma invalid_item_empty_geometry_witness :
  isValid (new None) = Some false ∧
  boundingRect None (new None) = Some nullRectF ∧
  DrawingRectItem.shape (λ _ _, mkPen 1) (λ _ _, mkBrush 255) (λ _, 0)
    (λ path _, path) None (new None) = Some PathEmpty.
Proof.
  split; [reflexivity |].
  destruct (invalid_item_empty_geometry
              (λ _ _, mkPen 1) (λ _ _, mkBrush 255) (λ _, 0) (λ path _, path)
              None (new None) eq_refl) as (Hb & _ & Hs).
  split; assumption.
Defined.

Lemma short_point_list_queries_witness :
  rect (rectItemOf [mkPointF 1 1; mkPointF 2 3]) = Some nullRectF ∧
  isValid (rectItemOf [mkPointF 1 1; mkPointF 2 3]) = Some false ∧
  boundingRect None (rectItemOf [mkPointF 1 1; mkPointF 2 3]) = Some nullRectF.
Proof.
  destruct (short_point_list_queries
              (λ _ _, mkPen 1) (λ _ _, mkBrush 255) (λ _, 0) (λ path _, path)
              None (rectItemOf [mkPointF 1 1; mkPointF 2 3]))
    as (Hr & Hv & Hb & _).
  - vm_compute. lia.
  - repeat split; assumption.
Defined.



End RectQueries.

(** ** Resizing the rectangle item *)

Section Resize.

Import DrawingRectItem.

Implicit Types (it : DrawingRectItem.t) (ps : list DrawingItemPoint.t).

Lemma eight_points ps :
  (8 ≤ length ps)%nat →
  ∃ p0 p1 p2 p3 p4 p5 p6 p7 rest,
    ps = p0 :: p1 :: p2 :: p3 :: p4 :: p5 :: p6 :: p7 :: rest.
Proof.
  intros H.
  do 8 (destruct ps as [| ? ps]; [simpl in H; lia |]).
  eauto 12.
Qed.

Lemma rect_equiv_sym (r s : QRectF) : r =r= s → s =r= r.
Proof. intros (? & ? & ? & ?). repeat split; by symmetry. Qed.

(** [placePoints] succeeds on eight points or more, keeps the length and
    puts the first eight on the boundary of the rectangle. *)
Lemma placePoints_spec (r : QRectF) ps :
  (8 ≤ length ps)%nat →
  ∃ ps', placePoints r ps = Some ps' ∧
         length ps' = length ps ∧ onBoundary r ps'.
Proof.
  intros H.
  destruct (eight_points ps H) as (p0&p1&p2&p3&p4&p5&p6&p7&rest&->).
  eexists. split; [reflexivity |]. split; [reflexivity |].
  unfold onBoundary. do 8 eexists.
  repeat (split; [reflexivity |]).
  repeat split; reflexivity.
Qed.

Lemma onBoundary_length (r : QRectF) ps :
  onBoundary r ps → (8 ≤ length ps)%nat.
Proof.
  intros (p0&p1&p2&p3&p4&p5&p6&p7&_&_&_&_&_&_&_&H7&_).
  apply lookup_lt_Some in H7. lia.
Qed.

(** [rect()] reads back the rectangle the points were placed on. *)
Lemma onBoundary_rect (r : QRectF) it :
  onBoundary r (points it) →
  ∃ r0, rect it = Some r0 ∧ r0 =r= r.
Proof.
  intros Hb. pose proof (onBoundary_length _ _ Hb) as Hlen.
  destruct Hb as (p0&p1&p2&p3&p4&p5&p6&p7&H0&_&_&_&H4&_&_&_&E0&_&_&_&E4&_).
  eexists. split; [by apply (rect_full it p0 p4) |].
  destruct E0 as [E0x E0y], E4 as [E4x E4y].
  unfold rect_equiv, rectF_of_corners, topLeft, bottomRight,
    left, top, right, bottom in *; simpl in *.
  repeat split; lra.
Qed.

Lemma onBoundary_equiv (r r' : QRectF) ps :
  r =r= r' → onBoundary r ps → onBoundary r' ps.
Proof.
  intros (Ex & Ey & Ew & Eh).
  intros (p0&p1&p2&p3&p4&p5&p6&p7&H0&H1&H2&H3&H4&H5&H6&H7&
          E0&E1&E2&E3&E4&E5&E6&E7).
  exists p0, p1, p2, p3, p4, p5, p6, p7.
  repeat (split; [assumption |]).
  unfold point_equiv, center, topLeft, topRight, bottomRight, bottomLeft,
    left, top, right, bottom in *; simpl in *.
  repeat split; qlin.
Qed.

(** Shifting every point shifts the rectangle they sit on. *)
Lemma onBoundary_shift (d : QPointF) (r : QRectF) ps :
  onBoundary r ps → onBoundary (translated d r) (shiftPoint d <$> ps).
Proof.
  intros (p0&p1&p2&p3&p4&p5&p6&p7&H0&H1&H2&H3&H4&H5&H6&H7&
          E0&E1&E2&E3&E4&E5&E6&E7).
  exists (shiftPoint d p0), (shiftPoint d p1), (shiftPoint d p2),
    (shiftPoint d p3), (shiftPoint d p4), (shiftPoint d p5),
    (shiftPoint d p6), (shiftPoint d p7).
  rewrite !list_lookup_fmap, H0, H1, H2, H3, H4, H5, H6, H7.
  repeat (split; [reflexivity |]).
  unfold point_equiv, translated, shiftPoint, point_add, center, topLeft,
    topRight, bottomRight, bottomLeft, left, top, right, bottom in *;
    simpl in *.
  repeat split; qlin.
Qed.

(** [setRect] answers on eight points or more, and then the points sit
    on the rectangle it was given, which [rect()] reads back. *)
Lemma setRect_onBoundary (r : QRectF) it :
  (8 ≤ length (points it))%nat →
  ∃ it' r0, setRect r it = Some it' ∧ onBoundary r (points it') ∧
            rect it' = Some r0 ∧ r0 =r= r.
Proof.
  intros Hlen. unfold setRect.
  destruct (placePoints_spec r (points it) Hlen) as (ps' & -> & _ & Hb).
  simpl.
  destruct (onBoundary_rect r
              (withBase (DrawingItem.withPoints ps' (base it)) it) Hb)
    as (r0 & Hr0 & E).
  eauto 6.
Qed.

(** The first half of a resize answers on eight points or more; it keeps
    the number of points, the transform, the position and the radii. *)
Lemma rederive_total it (itemPoint : nat) (scenePos : QPointF) :
  (8 ≤ length (points it))%nat →
  ∃ mid, rederive itemPoint scenePos it = Some mid ∧
         length (points mid) = length (points it) ∧
         DrawingItem.mTransform (base mid) = DrawingItem.mTransform (base it) ∧
         DrawingItem.mPosition (base mid) = DrawingItem.mPosition (base it) ∧
         (itemPoint < 8 → ∃ r, onBoundary r (points mid))%nat.
Proof.
  intros Hlen. unfold rederive.
  set (it1 := withBase (DrawingItem.resizeItem itemPoint scenePos (base it)) it).
  assert (Hl1 : length (points it1) = length (points it)).
  { unfold it1, points, DrawingItem.points, DrawingItem.resizeItem,
      DrawingItem.setPosVia; simpl.
    destruct (DrawingItem.mPoints (base it) !! itemPoint);
      [apply length_insert | reflexivity]. }
  destruct (Nat.leb_spec 8 (length (points it1))) as [_ | ?]; [| lia].
  destruct (rect_total it1) as [r ->]. simpl.
  destruct (Nat.ltb_spec itemPoint (length (points it1))) as [Hin | Hout];
    destruct (Nat.ltb_spec itemPoint 8) as [H8 | H8]; simpl;
    try (exists it1; repeat split; try done; intros; lia).
  destruct (lookup_lt_is_Some_2 (points it1) itemPoint Hin) as [ip ->]. simpl.
  destruct (placePoints_spec (moveEdge itemPoint ip r) (points it1))
    as (ps' & -> & Hl' & Hb); [lia |]. simpl.
  eexists. split; [reflexivity |].
  unfold points, DrawingItem.points; simpl.
  split; [unfold points, DrawingItem.points in *; congruence |].
  repeat split. intros _. eauto.
Qed.

(** The second half of a resize answers on an item with a point; every
    point is shifted by minus the first one, and the item moves to the
    scene position the first point had. *)
Lemma renormalize_spec it p0 rest :
  points it = p0 :: rest →
  ∃ it', renormalize it = Some it' ∧
    points it' = shiftPoint (point_neg (DrawingItemPoint.pos p0)) <$> points it ∧
    DrawingItem.mTransform (base it') = DrawingItem.mTransform (base it) ∧
    DrawingItem.mPosition (base it') =
      DrawingItem.mapToScene (base it) (DrawingItemPoint.pos p0).
Proof.
  intros Hps. unfold renormalize. rewrite Hps. simpl.
  eexists. split; [reflexivity |]. repeat split.
Qed.

(** Before the shift, the moved point is where the resize put it. *)
Lemma rederive_follows it (itemPoint : nat) (scenePos : QPointF) :
  (8 ≤ length (points it))%nat → (itemPoint < 8)%nat →
  ∃ mid pm, rederive itemPoint scenePos it = Some mid ∧
    points mid !! itemPoint = Some pm ∧
    follows itemPoint (DrawingItem.mapFromScene (base it) scenePos)
            (DrawingItemPoint.pos pm).
Proof.
  intros Hlen Hidx.
  destruct it as [[ipos T Tinv ps st] crx cry].
  unfold points, DrawingItem.points in Hlen; simpl in Hlen.
  destruct (eight_points ps Hlen) as (p0&p1&p2&p3&p4&p5&p6&p7&rest&->).
  unfold rederive, DrawingItem.resizeItem, DrawingItem.mapFromScene.
  cbn [base DrawingItem.mPosition DrawingItem.mTransformInverse
       DrawingItem.mPoints].
  set (q := map Tinv (point_sub scenePos ipos)). clearbody q.
  destruct itemPoint as [|[|[|[|[|[|[|[|?]]]]]]]]; [.. | lia].
  all: eexists _, _; split; [reflexivity |]; split; [reflexivity |].
  all: unfold follows, point_equiv, right, bottom, setTopLeft, setTopRight,
    setBottomRight, setBottomLeft, setLeft, setTop, setRight, setBottom,
    DrawingItemPoint.x, DrawingItemPoint.y; simpl;
    unfold DrawingItemPoint.x, DrawingItemPoint.y; simpl; try split; lra.
Qed.

(** The shift leaves every point where it was in the scene, when the
    item's transform is linear. *)
Lemma renormalize_scene it it' (i : nat) (p : QPointF) :
  linear (DrawingItem.mTransform (base it)) →
  renormalize it = Some it' →
  pointScenePos it i = Some p →
  ∃ p', pointScenePos it' i = Some p' ∧ p' =p= p.
Proof.
  intros [Hdx Hdy] Hren Hp.
  destruct (points it) as [| p0 rest] eqn:Hps.
  { unfold renormalize in Hren. rewrite Hps in Hren. discriminate. }
  destruct (renormalize_spec it p0 rest Hps) as (it2 & Hren2 & Hps2 & HT & HP).
  rewrite Hren in Hren2. injection Hren2 as <-.
  unfold pointScenePos in *. rewrite Hps2, list_lookup_fmap.
  destruct (points it !! i) as [pi |]; [| discriminate].
  injection Hp as <-. simpl. eexists. split; [reflexivity |].
  unfold DrawingItem.mapToScene. rewrite HT, HP.
  unfold DrawingItem.mapToScene, map, point_add, point_neg, point_equiv;
    simpl.
  split; [rewrite Hdx | rewrite Hdy]; ring.
Qed.





End Resize.

(** ** A new rectangle item *)

Section NewItem.

Import DrawingRectItem.

(** The constructor leaves eight points at the origin, the identity
    transform and the item at the origin of the scene, whatever the style. *)
Lemma new_unfold defaults :
  new defaults =
  mk (DrawingItem.mk originF identityTransform identityTransform
        (replicate 8 (DrawingItemPoint.mk (mkPointF 0 0)
           [DrawingItemPoint.Control; DrawingItemPoint.Connection]))
        (style (new defaults))) 0 0.
Proof. reflexivity. Qed.



End NewItem.

(** ** Style seeding *)

Section Style.

Import DrawingItemStyle.

(** C7. The constructor resolves each of the nine pen and brush
    properties against the default table current at construction, with
    its own fallback, and stores the result in the item's local table;
    whatever the shared default table holds later, and whatever fallback
    a later lookup passes, the item resolves the property to that stored
    value. *)
Theorem new_style_seeded (defaults later : option (gmap Property QVariant))
    (k : Property) (fallback : QVariant) :
  mValues (DrawingRectItem.style (DrawingRectItem.new defaults)) !! k =
    Some (valueLookup defaults DrawingItemStyle.empty k (builtinValue k)) ∧
  valueLookup later (DrawingRectItem.style (DrawingRectItem.new defaults))
              k fallback =
    valueLookup defaults DrawingItemStyle.empty k (builtinValue k).
Proof.
  assert (H : mValues (DrawingRectItem.style (DrawingRectItem.new defaults)) !! k =
    Some (valueLookup defaults DrawingItemStyle.empty k (builtinValue k))).
  { unfold DrawingRectItem.new, DrawingRectItem.style, DrawingRectItem.seed,
      setValue, valueLookup, DrawingItem.style.
    cbn [DrawingRectItem.base DrawingItem.withStyle DrawingItem.mStyle mValues
         DrawingItemStyle.empty].
    destruct k; simplify_map_eq; reflexivity. }
  split; [exact H |].
  unfold valueLookup at 1. rewrite H. reflexivity.
Qed.

(** A default pen width of 5 at construction stays the item's pen width
    after the shared default becomes 9. *)
Example new_style_keeps_pen_width :
  valueLookup (Some {[PenWidth := VReal 9]})
    (DrawingRectItem.style
       (DrawingRectItem.new (Some {[PenWidth := VReal 5]})))
    PenWidth VInvalid = VReal 5.
Proof. reflexivity. Qed.

End Style.

(** ** Removing a point of a polygon *)

Section Polygon.

Import DrawingPolygonItem.

Implicit Types (ps pre : list DrawingItemPoint.t).

(** The scan keeps, as its best point, one that is at least as near as
    every point already passed. *)
Lemma nearestFrom_spec (itemPos : QPointF) ps :
  ∀ pre (best : nat) (bestD : Q),
    (∃ p, pre !! best = Some p ∧
          bestD = DrawingItem.distance2 (DrawingItemPoint.pos p) itemPos) →
    (∀ (j : nat) q, pre !! j = Some q →
          bestD <= DrawingItem.distance2 (DrawingItemPoint.pos q) itemPos) →
    ∃ p, (pre ++ ps) !!
           DrawingItem.nearestFrom itemPos best bestD (length pre) ps = Some p ∧
         ∀ (j : nat) q, (pre ++ ps) !! j = Some q →
           DrawingItem.distance2 (DrawingItemPoint.pos p) itemPos <=
           DrawingItem.distance2 (DrawingItemPoint.pos q) itemPos.
Proof.
  induction ps as [| x ps IH]; intros pre best bestD (p & Hp & ->) Hmin.
  - simpl. rewrite app_nil_r. eauto.
  - simpl.
    replace (pre ++ x :: ps) with ((pre ++ [x]) ++ ps)
      by (rewrite <- app_assoc; reflexivity).
    replace (S (length pre)) with (length (pre ++ [x]))
      by (rewrite length_app; simpl; lia).
    destruct (Qltb (DrawingItem.distance2 (DrawingItemPoint.pos x) itemPos)
                   (DrawingItem.distance2 (DrawingItemPoint.pos p) itemPos))
      eqn:E.
    + apply Qltb_lt in E. apply IH.
      * exists x. split; [| reflexivity].
        rewrite lookup_app_r by lia. by rewrite Nat.sub_diag.
      * intros j q Hq. apply lookup_app_Some in Hq as [Hq | [Hj Hq]].
        -- pose proof (Hmin j q Hq). lra.
        -- destruct (j - length pre)%nat; [| done].
           injection Hq as <-. lra.
    + apply Qltb_ge in E. apply IH.
      * exists p. split; [| reflexivity].
        apply lookup_app_l_Some. exact Hp.
      * intros j q Hq. apply lookup_app_Some in Hq as [Hq | [Hj Hq]].
        -- by apply (Hmin j).
        -- destruct (j - length pre)%nat; [| done].
           injection Hq as <-. exact E.
Qed.

(** [pointNearest] returns a point of the item that no other point of
    the item is nearer than. *)
Lemma pointNearest_spec (b : DrawingItem.t) (itemPos : QPointF) :
  DrawingItem.mPoints b ≠ [] →
  ∃ (i : nat) p,
    DrawingItem.pointNearest b itemPos = Some i ∧
    DrawingItem.mPoints b !! i = Some p ∧
    ∀ (j : nat) q, DrawingItem.mPoints b !! j = Some q →
      DrawingItem.distance2 (DrawingItemPoint.pos p) itemPos <=
      DrawingItem.distance2 (DrawingItemPoint.pos q) itemPos.
Proof.
  intros Hne. unfold DrawingItem.pointNearest.
  destruct (DrawingItem.mPoints b) as [| x ps]; [done |].
  destruct (nearestFrom_spec itemPos ps [x] 0%nat
              (DrawingItem.distance2 (DrawingItemPoint.pos x) itemPos))
    as (p & Hp & Hmin).
  - exists x. split; reflexivity.
  - intros [| j] q Hq; [| done]. injection Hq as <-. lra.
  - eauto.
Qed.

(** C9. A polygon with exactly three points gives no point to remove,
    whatever the position. A polygon with four points or more gives one of
    its points, none of the others being nearer to the position, and
    removing it leaves one point fewer, hence at least three. *)
Theorem itemPointToRemove_minimum (it : DrawingPolygonItem.t)
    (itemPos : QPointF) :
  (length (points it) = 3%nat → itemPointToRemove it itemPos = None) ∧
  ((4 ≤ length (points it))%nat →
   ∃ (i : nat) p,
     itemPointToRemove it itemPos = Some i ∧
     points it !! i = Some p ∧
     (∀ (j : nat) q, points it !! j = Some q →
        DrawingItem.distance2 (DrawingItemPoint.pos p) itemPos <=
        DrawingItem.distance2 (DrawingItemPoint.pos q) itemPos) ∧
     S (length (points (removePoint i it))) = length (points it) ∧
     (3 ≤ length (points (removePoint i it)))%nat).
Proof.
  unfold itemPointToRemove. split.
  - intros ->. reflexivity.
  - intros Hlen.
    destruct (Nat.ltb_spec 3 (length (points it))) as [_ | ?]; [| lia].
    destruct (pointNearest_spec (base it) itemPos) as (i & p & Hi & Hp & Hmin).
    { unfold points, DrawingItem.points in Hlen.
      destruct (DrawingItem.mPoints (base it)); [simpl in Hlen; lia | done]. }
    exists i, p. repeat (split; [done |]).
    assert (Hrem : S (length (points (removePoint i it))) = length (points it)).
    { unfold removePoint, points, DrawingItem.removePoint, DrawingItem.points.
      simpl. rewrite length_delete by (exists p; exact Hp).
      apply lookup_lt_Some in Hp. lia. }
    split; [exact Hrem | lia].
Qed.

Lemma itemPointToRemove_minimum_witness :
  itemPointToRemove triangleItem (mkPointF 4 0) = None ∧
  ∃ (i : nat) p,
    itemPointToRemove quadItem (mkPointF 3 4) = Some i ∧
    points quadItem !! i = Some p ∧
    (3 ≤ length (points (removePoint i quadItem)))%nat.
Proof.
  split.
  - apply (itemPointToRemove_minimum triangleItem (mkPointF 4 0)).
    reflexivity.
  - destruct (itemPointToRemove_minimum quadItem (mkPointF 3 4)) as [_ H].
    destruct H as (i & p & Hi & Hp & _ & _ & Hlen); [vm_compute; lia |].
    exists i, p. auto.
Defined.

(** On the square (0,0), (4,0), (4,4), (0,4) the point nearest to (3,4)
    is the third one. *)
Example itemPointToRemove_quad :
  itemPointToRemove quadItem (mkPointF 3 4) = Some 2%nat ∧
  length (points (removePoint 2 quadItem)) = 3%nat.
Proof. split; reflexivity. Qed.

End Polygon.

(** ** Setting the rectangle *)

Section SetRect.

Import DrawingRectItem.

Implicit Types (it : DrawingRectItem.t) (ps : list DrawingItemPoint.t).

Lemma setPointPos_frame (i : nat) (q : QPointF) ps ps' :
  DrawingItem.setPointPos i q ps = Some ps' →
  length ps' = length ps ∧
  DrawingItemPoint.flags <$> ps' = DrawingItemPoint.flags <$> ps ∧
  (∀ j : nat, j ≠ i → ps' !! j = ps !! j).
Proof.
  unfold DrawingItem.setPointPos. intros H.
  destruct (ps !! i) as [p |] eqn:Hp; [| discriminate].
  injection H as <-. split; [apply length_insert |]. split.
  - rewrite list_fmap_insert. simpl. apply list_insert_id.
    by rewrite list_lookup_fmap, Hp.
  - intros j Hj. by apply list_lookup_insert_ne.
Qed.

Lemma placePoints_frame (r : QRectF) ps ps' :
  placePoints r ps = Some ps' →
  length ps' = length ps ∧
  DrawingItemPoint.flags <$> ps' = DrawingItemPoint.flags <$> ps ∧
  (∀ j : nat, (8 ≤ j)%nat → ps' !! j = ps !! j).
Proof.
  unfold placePoints. intros H.
  repeat match type of H with
  | (?m ≫= _) = Some _ =>
      let E := fresh "E" in
      destruct m eqn:E; [simpl in H | discriminate H];
      apply setPointPos_frame in E; destruct E as (? & ? & ?)
  end.
  apply setPointPos_frame in H. destruct H as (? & ? & ?).
  split; [congruence |]. split; [congruence |].
  intros j Hj.
  repeat match goal with
  | Hk : ∀ j : nat, j ≠ _ → _ !! j = _ !! j |- _ =>
      rewrite Hk by lia; clear Hk
  end.
  reflexivity.
Qed.

Lemma placePoints_short (r : QRectF) ps :
  (length ps < 8)%nat → placePoints r ps = None.
Proof.
  intros H.
  do 8 (destruct ps as [| ? ps]; [reflexivity |]).
  simpl in H. lia.
Qed.



(** X2. [setRect] has no size check: on an item with fewer than eight
    points it indexes past the end of the point list and faults. *)
Theorem setRect_short (r : QRectF) it :
  (length (points it) < 8)%nat → setRect r it = None.
Proof.
  intros H. unfold setRect. by rewrite placePoints_short.
Qed.

Lemma setRect_short_witness :
  setRect (mkRectF 0 0 3 4) (rectItemOf [mkPointF 1 1; mkPointF 2 3]) = None.
Proof.
  apply setRect_short. vm_compute. lia.
Defined.

(** X3. [setRect] moves the first eight points and nothing else: the
    number of points, their flags, every point from the ninth on, the
    item's position, transform, style and corner radii stay. *)
Theorem setRect_frame (r : QRectF) it it' :
  setRect r it = Some it' →
  length (points it') = length (points it) ∧
  DrawingItemPoint.flags <$> points it' = DrawingItemPoint.flags <$> points it ∧
  (∀ j : nat, (8 ≤ j)%nat → points it' !! j = points it !! j) ∧
  DrawingItem.mPosition (base it') = DrawingItem.mPosition (base it) ∧
  DrawingItem.mTransform (base it') = DrawingItem.mTransform (base it) ∧
  DrawingItem.mTransformInverse (base it') =
    DrawingItem.mTransformInverse (base it) ∧
  style it' = style it ∧
  cornerRadiusX it' = cornerRadiusX it ∧
  cornerRadiusY it' = cornerRadiusY it.
Proof.
  unfold setRect. intros H.
  destruct (placePoints r (points it)) as [ps' |] eqn:E; [| discriminate].
  injection H as <-.
  destruct (placePoints_frame r _ _ E) as (Hl & Hf & Hrest).
  repeat split; try done.
Qed.

Lemma setRect_frame_witness :
  ∃ it', setRect (mkRectF 1 2 5 6) boxRectItem = Some it' ∧
         style it' = style boxRectItem ∧
         length (points it') = 8%nat.
Proof.
  eexists. split; [reflexivity |].
  destruct (setRect_frame (mkRectF 1 2 5 6) boxRectItem _ eq_refl)
    as (Hl & _ & _ & _ & _ & _ & Hs & _).
  split; [exact Hs | exact Hl].
Defined.



End SetRect.

(** ** The bounding rectangle *)

Section BoundingRect.

Import DrawingRectItem.

Implicit Types (it : DrawingRectItem.t).

(** The pen width [boundingRect()] reads from the style. *)
Local Abbreviation penWidthOf defaults it :=
  (toReal (DrawingItemStyle.valueLookup defaults (style it)
             DrawingItemStyle.PenWidth VInvalid)).

Lemma boundingRect_edges defaults it p0 p4 :
  isValid it = Some true →
  points it !! 0%nat = Some p0 → points it !! 4%nat = Some p4 →
  ∃ b, boundingRect defaults it = Some b ∧
    left b == Qmin (xp (DrawingItemPoint.pos p0)) (xp (DrawingItemPoint.pos p4))
              - penWidthOf defaults it / 2 ∧
    top b == Qmin (yp (DrawingItemPoint.pos p0)) (yp (DrawingItemPoint.pos p4))
             - penWidthOf defaults it / 2 ∧
    right b == Qmax (xp (DrawingItemPoint.pos p0)) (xp (DrawingItemPoint.pos p4))
               + penWidthOf defaults it / 2 ∧
    bottom b == Qmax (yp (DrawingItemPoint.pos p0)) (yp (DrawingItemPoint.pos p4))
                + penWidthOf defaults it / 2.
Proof.
  intros Hv H0 H4.
  pose proof (isValid_true_length it Hv) as Hlen.
  eexists. split.
  { unfold boundingRect. rewrite Hv. simpl.
    rewrite (rect_full it p0 p4) by done. reflexivity. }
  destruct (normalized_edges (DrawingItemPoint.pos p0) (DrawingItemPoint.pos p4))
    as (Hl & Ht & Hr & Hb).
  unfold left, top, right, bottom in *. unfold adjust; simpl.
  rewrite <- Hl, <- Ht, <- Hr, <- Hb.
  repeat split; unfold Qdiv; ring.
Qed.



(** The two corner points are compared the same way in either order. *)
Lemma point_neqb_sym (p q : QPointF) : point_neqb p q = point_neqb q p.
Proof.
  unfold point_neqb, point_eqb. f_equal.
  rewrite (Qeq_bool_comm (xp p)), (Qeq_bool_comm (yp p)). reflexivity.
Qed.



(** X7. On a valid item with a pen width that is not negative,
    [boundingRect()] is at least one pen width wide and high; with a
    positive pen width it is not empty. *)
Theorem boundingRect_extent defaults it :
  isValid it = Some true →
  0 <= penWidthOf defaults it →
  ∃ b, boundingRect defaults it = Some b ∧
       penWidthOf defaults it <= width b ∧
       penWidthOf defaults it <= height b ∧
       (0 < penWidthOf defaults it → isEmpty b = false).
Proof.
  intros Hv Hpw.
  pose proof (isValid_true_length it Hv) as Hlen.
  destruct (corners_present it Hlen) as (p0 & p4 & H0 & H4).
  destruct (boundingRect_edges defaults it p0 p4 Hv H0 H4)
    as (b & Hb & Hl & Ht & Hr & Hbt).
  exists b. split; [exact Hb |].
  set (w := penWidthOf defaults it) in *. clearbody w.
  pose proof (Q.le_min_l (xp (DrawingItemPoint.pos p0)) (xp (DrawingItemPoint.pos p4))).
  pose proof (Q.le_max_l (xp (DrawingItemPoint.pos p0)) (xp (DrawingItemPoint.pos p4))).
  pose proof (Q.le_min_l (yp (DrawingItemPoint.pos p0)) (yp (DrawingItemPoint.pos p4))).
  pose proof (Q.le_max_l (yp (DrawingItemPoint.pos p0)) (yp (DrawingItemPoint.pos p4))).
  set (lo := Qmin (xp (DrawingItemPoint.pos p0)) (xp (DrawingItemPoint.pos p4))) in *.
  set (hi := Qmax (xp (DrawingItemPoint.pos p0)) (xp (DrawingItemPoint.pos p4))) in *.
  set (lo' := Qmin (yp (DrawingItemPoint.pos p0)) (yp (DrawingItemPoint.pos p4))) in *.
  set (hi' := Qmax (yp (DrawingItemPoint.pos p0)) (yp (DrawingItemPoint.pos p4))) in *.
  clearbody lo hi lo' hi'.
  unfold left, top, right, bottom, width, height in *.
  assert (Hw : w <= rw b) by qlin.
  assert (Hh : w <= rh b) by qlin.
  split; [exact Hw |]. split; [exact Hh |].
  intros Hpos. unfold isEmpty.
  apply orb_false_iff. split.
  - destruct (Qle_bool (rw b) 0) eqn:E; [| reflexivity].
    apply Qle_bool_iff in E. lra.
  - destruct (Qle_bool (rh b) 0) eqn:E; [| reflexivity].
    apply Qle_bool_iff in E. lra.
Qed.

Lemma boundingRect_extent_witness :
  ∃ b, boundingRect None boxRectItem = Some b ∧
       12 <= width b ∧ 12 <= height b ∧ isEmpty b = false.
Proof.
  destruct (boundingRect_extent None boxRectItem) as (b & Hb & Hw & Hh & He).
  - reflexivity.
  - vm_compute. discriminate.
  - exists b. split; [exact Hb |]. split; [exact Hw |]. split; [exact Hh |].
    apply He. reflexivity.
Defined.

End BoundingRect.

(** ** Painting *)

Section Painting.

Import DrawingRectItem.

Variable pen : option (gmap DrawingItemStyle.Property QVariant) →
               DrawingItemStyle.t → QPen.
Variable brush : option (gmap DrawingItemStyle.Property QVariant) →
                 DrawingItemStyle.t → QBrush.

(** X8. [paint] always answers and hands the painter back with the brush
    and the pen it came with. An invalid item draws nothing; a valid item
    draws one rounded rectangle, [rect()] as it is (not normalized) with
    the item's two radii, under the pen and the brush of its style. *)
Theorem paint_restores_painter defaults (it : DrawingRectItem.t)
    (painter : QPainter) :
  ∃ painter' (valid : bool) r,
    paint pen brush defaults it painter = Some painter' ∧
    isValid it = Some valid ∧ rect it = Some r ∧
    painterBrush painter' = painterBrush painter ∧
    painterPen painter' = painterPen painter ∧
    painted painter' =
      painted painter ++
      (if valid
       then [DrawRoundedRect r (cornerRadiusX it) (cornerRadiusY it)
               (pen defaults (style it)) (brush defaults (style it))]
       else []).
Proof.
  destruct (isValid_total it) as [valid Hv].
  destruct (rect_total it) as [r Hr].
  unfold paint. rewrite Hv. simpl. destruct valid.
  - rewrite Hr. simpl. eexists _, true, r. repeat split.
  - exists painter, false, r. rewrite app_nil_r. repeat split; done.
Qed.

End Painting.

(** ** More on resizing *)

Section ResizeMore.

Import DrawingRectItem.

Implicit Types (it : DrawingRectItem.t) (ps : list DrawingItemPoint.t).

Lemma map_equiv (t : QTransform) (p q : QPointF) :
  p =p= q → map t p =p= map t q.
Proof.
  intros [Hx Hy]. unfold map, point_equiv; simpl.
  rewrite Hx, Hy. split; reflexivity.
Qed.

Lemma point_equiv_trans (p q r : QPointF) : p =p= q → q =p= r → p =p= r.
Proof. intros [? ?] [? ?]. split; etrans; eauto. Qed.

Lemma setPosVia_frame (i : nat) (q : QPointF) ps :
  length (DrawingItem.setPosVia i q ps) = length ps ∧
  DrawingItemPoint.flags <$> DrawingItem.setPosVia i q ps =
    DrawingItemPoint.flags <$> ps.
Proof.
  unfold DrawingItem.setPosVia.
  destruct (ps !! i) as [p |] eqn:Hp; [| done].
  split; [apply length_insert |].
  rewrite list_fmap_insert. simpl. apply list_insert_id.
  by rewrite list_lookup_fmap, Hp.
Qed.

(** The first half of a resize answers on every item, and changes
    nothing but positions of points. *)
Lemma rederive_frame it (itemPoint : nat) (scenePos : QPointF) :
  ∃ mid, rederive itemPoint scenePos it = Some mid ∧
    length (points mid) = length (points it) ∧
    DrawingItemPoint.flags <$> points mid =
      DrawingItemPoint.flags <$> points it ∧
    DrawingItem.mPosition (base mid) = DrawingItem.mPosition (base it) ∧
    DrawingItem.mTransform (base mid) = DrawingItem.mTransform (base it) ∧
    DrawingItem.mTransformInverse (base mid) =
      DrawingItem.mTransformInverse (base it) ∧
    style mid = style it ∧
    cornerRadiusX mid = cornerRadiusX it ∧
    cornerRadiusY mid = cornerRadiusY it.
Proof.
  unfold rederive.
  set (it1 := withBase (DrawingItem.resizeItem itemPoint scenePos (base it)) it).
  destruct (setPosVia_frame itemPoint
              (DrawingItem.mapFromScene (base it) scenePos)
              (DrawingItem.mPoints (base it))) as [Hl1 Hf1].
  assert (Hframe1 :
    length (points it1) = length (points it) ∧
    DrawingItemPoint.flags <$> points it1 =
      DrawingItemPoint.flags <$> points it) by (split; assumption).
  destruct Hframe1 as [Hl Hf].
  destruct (Nat.leb_spec 8 (length (points it1))) as [H8 | H8];
    [| exists it1; repeat split; done].
  destruct (rect_total it1) as [r ->]. simpl.
  destruct ((itemPoint <? length (points it1))%nat && (itemPoint <? 8)%nat)
    eqn:Hc; [| exists it1; repeat split; done].
  apply andb_true_iff in Hc as [Hin _]. apply Nat.ltb_lt in Hin.
  destruct (lookup_lt_is_Some_2 (points it1) itemPoint Hin) as [ip ->]. simpl.
  destruct (placePoints (moveEdge itemPoint ip r) (points it1))
    as [ps' |] eqn:E.
  - destruct (placePoints_frame _ _ _ E) as (Hl' & Hf' & _). simpl.
    eexists. split; [reflexivity |].
    unfold points, DrawingItem.points in *; simpl in *.
    repeat split; congruence.
  - destruct (placePoints_spec (moveEdge itemPoint ip r) (points it1) H8)
      as (ps' & E' & _). congruence.
Qed.

Lemma renormalize_frame it it' :
  renormalize it = Some it' →
  length (points it') = length (points it) ∧
  DrawingItemPoint.flags <$> points it' =
    DrawingItemPoint.flags <$> points it ∧
  DrawingItem.mTransform (base it') = DrawingItem.mTransform (base it) ∧
  DrawingItem.mTransformInverse (base it') =
    DrawingItem.mTransformInverse (base it) ∧
  style it' = style it ∧
  cornerRadiusX it' = cornerRadiusX it ∧
  cornerRadiusY it' = cornerRadiusY it.
Proof.
  unfold renormalize. intros H.
  destruct (head (points it)) as [first |]; [| discriminate].
  injection H as <-.
  unfold points, DrawingItem.points; simpl.
  split; [apply length_fmap |]. split; [| done].
  rewrite <- list_fmap_compose. reflexivity.
Qed.

(** X9. A resize changes positions only: the number of points, their
    flags, the transform and its inverse, the style and the corner radii
    of the item are the same before and after. *)
Theorem resizeItem_frame it it' (itemPoint : nat) (scenePos : QPointF) :
  resizeItem itemPoint scenePos it = Some it' →
  length (points it') = length (points it) ∧
  DrawingItemPoint.flags <$> points it' =
    DrawingItemPoint.flags <$> points it ∧
  DrawingItem.mTransform (base it') = DrawingItem.mTransform (base it) ∧
  DrawingItem.mTransformInverse (base it') =
    DrawingItem.mTransformInverse (base it) ∧
  style it' = style it ∧
  cornerRadiusX it' = cornerRadiusX it ∧
  cornerRadiusY it' = cornerRadiusY it.
Proof.
  unfold resizeItem. intros H.
  destruct (rederive_frame it itemPoint scenePos)
    as (mid & Hmid & Hl & Hf & _ & HT & HTi & Hs & Hx & Hy).
  rewrite Hmid in H. simpl in H.
  destruct (renormalize_frame mid it' H)
    as (Hl' & Hf' & HT' & HTi' & Hs' & Hx' & Hy').
  repeat split; congruence.
Qed.

Lemma resizeItem_frame_witness :
  ∃ it', resizeItem 2 (mkPointF 7 (- (1))) boxRectItem = Some it' ∧
         length (points it') = 8%nat ∧ style it' = style boxRectItem.
Proof.
  eexists. split; [reflexivity |].
  destruct (resizeItem_frame boxRectItem _ 2 (mkPointF 7 (- (1))) eq_refl)
    as (Hl & _ & _ & _ & Hs & _).
  split; [exact Hl | exact Hs].
Defined.

(** X10. A resize faults exactly on an item without points, where
    [points.first()] has nothing to return; on any other item it
    answers. *)
Theorem resizeItem_None_iff it (itemPoint : nat) (scenePos : QPointF) :
  resizeItem itemPoint scenePos it = None ↔ points it = [].
Proof.
  unfold resizeItem.
  destruct (rederive_frame it itemPoint scenePos)
    as (mid & -> & Hl & _). simpl.
  unfold renormalize.
  destruct (points mid) as [| p0 rest] eqn:Hps; simpl.
  - split; [intros _ | done].
    destruct (points it); [done | simpl in Hl; lia].
  - split; [done |]. intros Hnil. rewrite Hnil in Hl. simpl in Hl. lia.
Qed.



(** Before the shift, the point across the rectangle from the moved one
    is where it was. *)
Lemma rederive_keeps_facing it (r0 : QRectF) (itemPoint : nat)
    (scenePos : QPointF) :
  onBoundary r0 (points it) → (itemPoint < 8)%nat →
  ∃ mid pm p,
    rederive itemPoint scenePos it = Some mid ∧
    points mid !! facing itemPoint = Some pm ∧
    points it !! facing itemPoint = Some p ∧
    DrawingItemPoint.pos pm =p= DrawingItemPoint.pos p.
Proof.
  intros Hb Hidx.
  pose proof (onBoundary_length _ _ Hb) as Hlen.
  destruct it as [[ipos T Tinv ps st] crx cry].
  unfold points, DrawingItem.points in Hlen, Hb; simpl in Hlen, Hb.
  destruct (eight_points ps Hlen) as (p0&p1&p2&p3&p4&p5&p6&p7&rest&->).
  destruct Hb as (q0&q1&q2&q3&q4&q5&q6&q7&H0&H1&H2&H3&H4&H5&H6&H7&
                  E0&E1&E2&E3&E4&E5&E6&E7).
  simpl in H0, H1, H2, H3, H4, H5, H6, H7.
  injection H0 as <-. injection H1 as <-. injection H2 as <-.
  injection H3 as <-. injection H4 as <-. injection H5 as <-.
  injection H6 as <-. injection H7 as <-.
  unfold rederive, DrawingItem.resizeItem, DrawingItem.mapFromScene.
  cbn [base DrawingItem.mPosition DrawingItem.mTransformInverse
       DrawingItem.mPoints].
  set (q := map Tinv (point_sub scenePos ipos)). clearbody q.
  destruct itemPoint as [|[|[|[|[|[|[|[|?]]]]]]]]; [.. | lia].
  all: eexists _, _, _; split; [reflexivity |];
    split; [reflexivity |]; split; [reflexivity |].
  all: unfold point_equiv, center, topLeft, topRight, bottomRight,
    bottomLeft, right, bottom, left, top, setTopLeft, setTopRight,
    setBottomRight, setBottomLeft, setLeft, setTop, setRight, setBottom,
    DrawingItemPoint.x, DrawingItemPoint.y in *; simpl in *;
    unfold DrawingItemPoint.x, DrawingItemPoint.y; simpl; split; qlin.
Qed.







End ResizeMore.

(** ** Creating an item with the mouse *)

Section NewItemEvents.

Import DrawingRectItem.

Implicit Types (it : DrawingRectItem.t).

Variable baseNewMouseMoveEvent :
  DrawingMouseEvent → DrawingItem.t → DrawingItem.t.

(** X15. [newItemCopyEvent] always answers [true] and collapses the item:
    all its points go to (0,0) with their flags kept, so the item is
    invalid and [rect()] and [boundingRect()] are the null rectangle;
    position, transform, style and radii stay. *)
Theorem newItemCopyEvent_collapses defaults it :
  let it' := (newItemCopyEvent it).1 in
  (newItemCopyEvent it).2 = true ∧
  length (points it') = length (points it) ∧
  Forall (λ p, DrawingItemPoint.pos p = mkPointF 0 0) (points it') ∧
  DrawingItemPoint.flags <$> points it' =
    DrawingItemPoint.flags <$> points it ∧
  isValid it' = Some false ∧
  rect it' = Some nullRectF ∧
  boundingRect defaults it' = Some nullRectF ∧
  DrawingItem.mPosition (base it') = DrawingItem.mPosition (base it) ∧
  DrawingItem.mTransform (base it') = DrawingItem.mTransform (base it) ∧
  style it' = style it ∧
  cornerRadiusX it' = cornerRadiusX it ∧
  cornerRadiusY it' = cornerRadiusY it.
Proof.
  intros it'.
  assert (Hps : points it' =
                DrawingItemPoint.setPos (mkPointF 0 0) <$> points it)
    by reflexivity.
  assert (Hl : length (points it') = length (points it))
    by (rewrite Hps; apply length_fmap).
  assert (Hall : Forall (λ p, DrawingItemPoint.pos p = mkPointF 0 0)
                        (points it')).
  { rewrite Hps. apply Forall_fmap, Forall_true. done. }
  assert (Hv : isValid it' = Some false).
  { destruct (Nat.lt_ge_cases (length (points it')) 8) as [H | H];
      [by apply isValid_short |].
    destruct (corners_present it' H) as (p0 & p4 & H0 & H4).
    rewrite (isValid_full it' p0 p4) by done.
    rewrite Forall_lookup in Hall.
    by rewrite (Hall _ _ H0), (Hall _ _ H4). }
  assert (Hr : rect it' = Some nullRectF).
  { destruct (Nat.lt_ge_cases (length (points it')) 8) as [H | H];
      [by apply rect_short |].
    destruct (corners_present it' H) as (p0 & p4 & H0 & H4).
    rewrite (rect_full it' p0 p4) by done.
    rewrite Forall_lookup in Hall.
    by rewrite (Hall _ _ H0), (Hall _ _ H4). }
  repeat split; try done.
  - rewrite Hps, <- list_fmap_compose. reflexivity.
  - unfold boundingRect. by rewrite Hv.
Qed.

(** X17. With the left button down, [newMouseMoveEvent] takes
    [points[4]] before anything else, and faults on an item with fewer
    than five points. *)
Theorem newMouseMoveEvent_short drawing (event : DrawingMouseEvent) it :
  N.land (buttons event) LeftButton ≠ 0%N →
  (length (points it) < 5)%nat →
  newMouseMoveEvent baseNewMouseMoveEvent drawing event it = None.
Proof.
  intros Hleft Hlen. unfold newMouseMoveEvent.
  apply N.eqb_neq in Hleft. rewrite Hleft. simpl.
  rewrite (lookup_ge_None_2 (points it) 4) by lia. reflexivity.
Qed.


End NewItemEvents.


Lemma newMouseMoveEvent_short_witness :
  DrawingRectItem.newMouseMoveEvent (λ _ b, b) None
    (DrawingRectItem.mkMouseEvent 1 (mkPointF 3 4))
    (rectItemOf [mkPointF 0 0; mkPointF 1 1]) = None.
Proof.
  apply newMouseMoveEvent_short; [discriminate | vm_compute; lia].
Defined.

(** ** The outline *)

Section Outline.

Import DrawingRectItem.

Variable pen : option (gmap DrawingItemStyle.Property QVariant) →
               DrawingItemStyle.t → QPen.
Variable brush : option (gmap DrawingItemStyle.Property QVariant) →
                 DrawingItemStyle.t → QBrush.
Variable minimumPenWidth : DrawingItem.t → Q.
Variable strokePath : QPainterPath → QPen → QPainterPath.

Lemma qMax_bounds (a b : Q) : a <= qMax a b ∧ b <= qMax a b.
Proof.
  unfold qMax. destruct (Qltb a b) eqn:E.
  - apply Qltb_lt in E. split; lra.
  - apply Qltb_ge in E. split; lra.
Qed.


End Outline.

